(** * Shallow embedding of src/complexity/generator.py

    The generators of [StringGenerator] and [GraphGenerator] draw from the
    process-wide [random] module.  We make that entropy explicit: an
    [entropy] stream is an infinite sequence of raw draws, and every
    primitive of the [random] module consumes draws from it.  Python
    exceptions raised on the way ([ValueError] for an empty [randint]
    range, [IndexError] for indexing out of range) are the [Err] case of a
    small state-and-error monad. *)

From Stdlib Require Import ZArith List String Ascii Bool Lia.
From Stdlib Require Import Relations Permutation.
Import ListNotations.
Open Scope Z_scope.

(** ** The random source as explicit state *)

Definition entropy := nat -> Z.

Inductive exn := ValueError | IndexError.

Inductive result (A : Type) :=
| Ok : A -> result A
| Err : exn -> result A.
Arguments Ok {A} _.
Arguments Err {A} _.

(** A computation reads the entropy stream and either raises or returns a
    value together with the rest of the stream. *)
Definition M (A : Type) := entropy -> result (A * entropy).

Definition ret {A} (a : A) : M A := fun s => Ok (a, s).

Definition bind {A B} (m : M A) (f : A -> M B) : M B :=
  fun s => match m s with
           | Ok (a, s') => f a s'
           | Err e => Err e
           end.

Definition raise {A} (e : exn) : M A := fun _ => Err e.

Notation "x <- m ;; k" := (bind m (fun x => k))
  (at level 61, m at next level, right associativity).

(** One raw draw of the underlying generator. *)
Definition draw : M Z := fun s => Ok (s O, fun n => s (S n)).

(** [random.random()] returns [x / 2^53] for a 53-bit integer [x]; we keep
    the integer [x]. *)
Definition two53 : Z := 2 ^ 53.

Definition random_ : M Z := r <- draw ;; ret (r mod two53).

(** The float literal [0.3] is exactly [5404319552844595 / 2^54], so
    [x / 2^53 < 0.3] holds exactly when [2 * x < 5404319552844595]. *)
Definition lt_point3 (x : Z) : bool := 2 * x <? 5404319552844595.

(** [random.randint(a, b)] is [randrange(a, b + 1)]: it raises [ValueError]
    ("empty range") when the width [b + 1 - a] is not positive, and
    otherwise returns [a + _randbelow(width)]. *)
Definition randint (a b : Z) : M Z :=
  let width := b + 1 - a in
  if width <=? 0 then raise ValueError
  else r <- draw ;; ret (a + r mod width).

(** Python's [seq[i]] on a list, with negative indices counted from the
    end. *)
Definition py_index {A} (l : list A) (i : Z) : M A :=
  let n := Z.of_nat (List.length l) in
  let i' := if i <? 0 then i + n else i in
  if (i' <? 0) || (n <=? i') then raise IndexError
  else match nth_error l (Z.to_nat i') with
       | Some x => ret x
       | None => raise IndexError
       end.

(** [random.choice(seq)]: [IndexError] on an empty sequence, otherwise
    [seq[_randbelow(len(seq))]]. *)
Definition choice {A} (l : list A) : M A :=
  match l with
  | [] => raise IndexError
  | _ => r <- draw ;; py_index l (r mod Z.of_nat (List.length l))
  end.

(** [random.choices(population, k=k)] without weights:
    [[population[floor(random() * n)] for i in _repeat(None, k)]];
    a negative [k] repeats nothing. *)
Fixpoint choices_n {A} (population : list A) (k : nat) : M (list A) :=
  match k with
  | O => ret []
  | S k' =>
      x <- random_ ;;
      let n := Z.of_nat (List.length population) in
      a <- py_index population ((x * n) / two53) ;;
      rest <- choices_n population k' ;;
      ret (a :: rest)
  end.

Definition choices {A} (population : list A) (k : Z) : M (list A) :=
  choices_n population (Z.to_nat k).

(** Monadic loops: [for x in l: acc = f(acc, x)]. *)
Fixpoint foldM {A B} (f : B -> A -> M B) (l : list A) (b : B) : M B :=
  match l with
  | [] => ret b
  | x :: l' => b' <- f b x ;; foldM f l' b'
  end.

(** [range(a, b)] over Python integers. *)
Definition zrange (a b : Z) : list Z :=
  map (fun k => a + Z.of_nat k) (seq 0 (Z.to_nat (b - a))).

(** ** StringGenerator *)

(** Python strings: [''.join] and [list(s)]. *)
Definition join (l : list string) : string := fold_right String.append EmptyString l.

Definition py_list_of_string (s : string) : list string :=
  map (fun c => String c EmptyString) (list_ascii_of_string s).

(** [str2[idx] = x] on a Python list. *)
Fixpoint set_nth {A} (l : list A) (i : nat) (x : A) : list A :=
  match l, i with
  | [], _ => []
  | _ :: l', O => x :: l'
  | y :: l', S i' => y :: set_nth l' i' x
  end.

Definition py_setitem {A} (l : list A) (i : Z) (x : A) : M (list A) :=
  let n := Z.of_nat (List.length l) in
  let i' := if i <? 0 then i + n else i in
  if (i' <? 0) || (n <=? i') then raise IndexError
  else ret (set_nth l (Z.to_nat i') x).

Definition default_alphabet : list string := ["A"; "B"; "C"]%string.

(** [self.alphabet = alphabet if alphabet else ['A', 'B', 'C']]: [None] and
    the empty list are falsy. *)
Definition StringGenerator_init (alphabet : option (list string)) : list string :=
  match alphabet with
  | Some ((_ :: _) as a) => a
  | _ => default_alphabet
  end.

(** [''.join(random.choices(self.alphabet, k=size))] *)
Definition generate (alphabet : list string) (size : Z) : M string :=
  syms <- choices alphabet size ;; ret (join syms).

(** One iteration of the mutation loop:
    [idx = random.randint(0, len(str2) - 1)];
    [str2[idx] = random.choice(self.alphabet)]. *)
Definition mutate (alphabet : list string) (str2 : list string) : M (list string) :=
  idx <- randint 0 (Z.of_nat (List.length str2) - 1) ;;
  sym <- choice alphabet ;;
  py_setitem str2 idx sym.

Fixpoint repeatM {A} (n : nat) (f : A -> M A) (a : A) : M A :=
  match n with
  | O => ret a
  | S n' => a' <- f a ;; repeatM n' f a'
  end.

Definition generate_pair (alphabet : list string) (len1 len2 : Z) (similar : bool)
  : M (string * string) :=
  str1 <- generate alphabet len1 ;;
  if similar then
    let str2 := py_list_of_string str1 in
    k <- randint 1 (len1 / 3) ;;
    str2' <- repeatM (Z.to_nat k) (mutate alphabet) str2 ;;
    ret (str1, join str2')
  else
    str2 <- generate alphabet len2 ;;
    ret (str1, str2).

(** ** GraphGenerator

    A networkx [Graph]/[DiGraph] as its node list and its edge list, each
    edge [(u, v, weight)], both in insertion order. *)
Record graph := mkGraph {
  g_directed : bool;
  g_nodes : list Z;
  g_edges : list (Z * Z * Z)
}.

Definition empty_graph (directed : bool) : graph := mkGraph directed [] [].

(** [add_node] does nothing for a node already present. *)
Definition add_node (g : graph) (n : Z) : graph :=
  if existsb (Z.eqb n) (g_nodes g) then g
  else mkGraph (g_directed g) (g_nodes g ++ [n]) (g_edges g).

(** The stored edge [e] is the edge [(u, v)]; an undirected graph also
    matches it reversed. *)
Definition same_edge (directed : bool) (u v : Z) (e : Z * Z * Z) : bool :=
  let '(a, b, _) := e in
  (Z.eqb a u && Z.eqb b v) || (negb directed && Z.eqb a v && Z.eqb b u).

(** [add_edge(u, v, weight=w)] adds the missing end points, then updates
    the attribute dict of an existing edge or creates the edge. *)
Definition add_edge (g : graph) (u v w : Z) : graph :=
  let g' := add_node (add_node g u) v in
  let d := g_directed g' in
  if existsb (same_edge d u v) (g_edges g') then
    mkGraph d (g_nodes g')
      (map (fun e => if same_edge d u v e
                     then let '(a, b, _) := e in (a, b, w) else e) (g_edges g'))
  else mkGraph d (g_nodes g') (g_edges g' ++ [(u, v, w)]).

(** The body of the inner loop, for the pair [(i, j)]. *)
Definition edge_step (weighted : bool) (i : Z) (g : graph) (j : Z) : M graph :=
  x <- random_ ;;
  if lt_point3 x then
    weight <- (if weighted then randint 1 10 else ret 1) ;;
    ret (add_edge g i j weight)
  else ret g.

Definition GraphGenerator_generate (directed weighted : bool) (size : Z) : M graph :=
  let g := fold_left add_node (zrange 0 size) (empty_graph directed) in
  foldM (fun g i => foldM (edge_step weighted i) (zrange (i + 1) size) g)
        (zrange 0 size) g.

(** ** The other generators of the module *)

(** [LinearDataGenerator.generate]: [list(range(1, size + 1))]. *)
Definition LinearDataGenerator_generate (size : Z) : list Z := zrange 1 (size + 1).

(** A list comprehension [[f(x) for x in l]] whose body draws entropy. *)
Fixpoint mapM {A B} (f : A -> M B) (l : list A) : M (list B) :=
  match l with
  | [] => ret []
  | x :: l' => y <- f x ;; ys <- mapM f l' ;; ret (y :: ys)
  end.

(** [RandomDataGenerator(low, high).generate(size)]:
    [[random.randint(self.low, self.high) for _ in range(size)]]. *)
Definition RandomDataGenerator_generate (low high size : Z) : M (list Z) :=
  mapM (fun _ => randint low high) (zrange 0 size).

(** [NumberGenerator(low, high, fixed)]; [fixed = None] is [None]. *)
Record NumberGenerator := mkNumberGenerator {
  ng_low : Z;
  ng_high : Z;
  ng_fixed : option Z
}.

(** [NumberGenerator.generate(size)]: [size] is not used;
    [if self.fixed is not None: return self.fixed];
    [return random.randint(self.low, self.high)]. *)
Definition NumberGenerator_generate (g : NumberGenerator) (size : Z) : M Z :=
  match ng_fixed g with
  | Some v => ret v
  | None => randint (ng_low g) (ng_high g)
  end.

(** [DataGeneratorFactory.generators], a Python dict from names to
    generator objects, as an association list in insertion order. *)
Definition DataGeneratorFactory (G : Type) := list (string * G).

Definition DataGeneratorFactory_init {G} : DataGeneratorFactory G := [].

(** [self.generators[name] = generator]: an existing key keeps its place
    and gets the new value; a new key is appended. *)
Fixpoint register_generator {G} (f : DataGeneratorFactory G) (name : string) (g : G)
  : DataGeneratorFactory G :=
  match f with
  | [] => [(name, g)]
  | (k, v) :: f' =>
      if String.eqb name k then (k, g) :: f'
      else (k, v) :: register_generator f' name g
  end.

Fixpoint dict_get {G} (f : DataGeneratorFactory G) (name : string) : option G :=
  match f with
  | [] => None
  | (k, v) :: f' => if String.eqb name k then Some v else dict_get f' name
  end.

(** [get_generator]: [if name not in self.generators: raise ValueError];
    [return self.generators[name]]. *)
Definition get_generator {G} (f : DataGeneratorFactory G) (name : string) : result G :=
  match dict_get f name with
  | Some g => Ok g
  | None => Err ValueError
  end.

(** ** Observations used by the claims *)

(** Number of positions at which two strings differ, over their common
    length. *)
Fixpoint hamming (a b : string) : nat :=
  match a, b with
  | String x a', String y b' =>
      (if ascii_dec x y then 0 else 1) + hamming a' b'
  | _, _ => O
  end.

(** The same count over two lists of symbols. *)
Fixpoint diff_l (a b : list string) : nat :=
  match a, b with
  | x :: a', y :: b' => (if string_dec x y then 0 else 1) + diff_l a' b'
  | _, _ => O
  end.

(** Every character of [str] is one of the default symbols. *)
Definition drawn_from_default (str : string) : Prop :=
  forall c, In c (list_ascii_of_string str) -> In (String c EmptyString) default_alphabet.

(** Every ordered pair [(u, v)] with [0 <= u < v < n]. *)
Fixpoint all_pairs (n : nat) : list (Z * Z) :=
  match n with
  | O => []
  | S m => all_pairs m ++ map (fun u => (u, Z.of_nat m)) (zrange 0 (Z.of_nat m))
  end.

(** An edge as an unordered pair. *)
Definition unordered (e : Z * Z * Z) : Z * Z :=
  let '(a, b, _) := e in (Z.min a b, Z.max a b).

(** A fixed entropy stream, for concrete runs. *)
Definition sample_entropy : entropy :=
  fun n => Z.of_nat n * 7919 * 1000000000007 + 12345.

(** A symbol that is a single character. *)
Definition is_char (x : string) : Prop := exists c, x = String c EmptyString.

(** The directed edge relation of a graph. *)
Definition edge (g : graph) (u v : Z) : Prop := exists w, In (u, v, w) (g_edges g).

Definition endpoints (e : Z * Z * Z) : Z * Z := let '(a, b, _) := e in (a, b).

(** Two entropy streams that yield the same draws. *)
Definition same_stream (s1 s2 : entropy) : Prop := forall n, s1 n = s2 n.

Definition weight_ok (weighted : bool) (w : Z) : Prop :=
  if weighted then 1 <= w <= 10 else w = 1.

Definition graph_inv (directed weighted : bool) (size : Z) (g : graph) : Prop :=
  g_directed g = directed /\ g_nodes g = zrange 0 size /\
  (forall u v w, In (u, v, w) (g_edges g) -> 0 <= u < v /\ v < size /\ weight_ok weighted w) /\
  NoDup (map endpoints (g_edges g)).

(** A computation that depends only on the draws it reads. *)
Definition resp {A} (m : M A) : Prop :=
  forall s1 s2, same_stream s1 s2 ->
  match m s1, m s2 with
  | Ok (a1, t1), Ok (a2, t2) => a1 = a2 /\ same_stream t1 t2
  | Err e1, Err e2 => e1 = e2
  | _, _ => False
  end.


Create HintDb resp.

(** ** Monad lemmas *)

Lemma bind_ok {A B} (m : M A) (f : A -> M B) s b s' :
  bind m f s = Ok (b, s') -> exists a s1, m s = Ok (a, s1) /\ f a s1 = Ok (b, s').
Proof.
  unfold bind. destruct (m s) as [[a s1]|e]; [eauto | discriminate].
Qed.

Lemma bind_ok_intro {A B} (m : M A) (f : A -> M B) s a s1 :
  m s = Ok (a, s1) -> bind m f s = f a s1.
Proof. unfold bind. intros ->. reflexivity. Qed.

Lemma randint_ok a b s x s' : randint a b s = Ok (x, s') -> a <= x <= b.
Proof.
  unfold randint. destruct (Z.leb_spec (b + 1 - a) 0); [discriminate|].
  cbn. intros H'. injection H' as <- _.
  pose proof (Z.mod_pos_bound (s O) (b + 1 - a)). lia.
Qed.

Lemma randint_err a b s : b < a -> randint a b s = Err ValueError.
Proof.
  intros H. unfold randint. destruct (Z.leb_spec (b + 1 - a) 0); [reflexivity | lia].
Qed.

Lemma randint_total a b s : a <= b -> exists x s', randint a b s = Ok (x, s').
Proof.
  intros H. unfold randint. destruct (Z.leb_spec (b + 1 - a) 0); [lia|].
  unfold bind, draw, ret. eauto.
Qed.

Lemma py_index_in {A} (l : list A) i s x s' : py_index l i s = Ok (x, s') -> In x l.
Proof.
  unfold py_index.
  destruct (_ || _); [discriminate|].
  destruct (nth_error l _) eqn:E; [|discriminate].
  intros H. injection H as <- _. eapply nth_error_In; eauto.
Qed.

Lemma py_index_total {A} (l : list A) i s :
  0 <= i < Z.of_nat (List.length l) -> exists x, py_index l i s = Ok (x, s).
Proof.
  intros H. unfold py_index.
  destruct (Z.ltb_spec i 0); [lia|].
  destruct (Z.ltb_spec i 0); [lia|].
  destruct (Z.leb_spec (Z.of_nat (List.length l)) i); [lia|]. cbn.
  destruct (nth_error l (Z.to_nat i)) eqn:E.
  - unfold ret. eauto.
  - apply nth_error_None in E. lia.
Qed.

Lemma choice_in {A} (l : list A) s x s' : choice l s = Ok (x, s') -> In x l.
Proof.
  unfold choice. destruct l as [|y l]; [discriminate|].
  intros H. apply bind_ok in H. destruct H as (r & s1 & _ & H).
  eapply py_index_in; eauto.
Qed.

Lemma choice_total {A} (l : list A) s : l <> [] -> exists x s', choice l s = Ok (x, s').
Proof.
  intros Hne. unfold choice. destruct l as [|y l]; [congruence|].
  unfold bind, draw.
  destruct (py_index_total (y :: l) (s O mod Z.of_nat (List.length (y :: l)))
              (fun n => s (S n))) as [x Hx].
  - apply Z.mod_pos_bound. cbn [List.length]. lia.
  - rewrite Hx. eauto.
Qed.

Lemma choices_n_spec {A} (p : list A) k s l s' :
  choices_n p k s = Ok (l, s') -> Forall (fun x => In x p) l /\ List.length l = k.
Proof.
  revert s l s'. induction k as [|k IH]; intros s l s' H.
  - cbn in H. injection H as <- _. auto.
  - cbn [choices_n] in H.
    apply bind_ok in H; destruct H as (x & s1 & _ & H).
    apply bind_ok in H; destruct H as (a & s2 & Ha & H).
    apply bind_ok in H; destruct H as (rest & s3 & Hr & H).
    injection H as <- _.
    destruct (IH _ _ _ Hr) as [HF HL].
    split; [constructor; [eapply py_index_in; eauto | exact HF] | cbn; lia].
Qed.

Lemma random_bound s x s' : random_ s = Ok (x, s') -> 0 <= x < two53.
Proof.
  unfold random_, bind, draw, ret. intros H. injection H as <- _.
  apply Z.mod_pos_bound. unfold two53. lia.
Qed.

Lemma choices_n_total {A} (p : list A) k s :
  p <> [] -> exists l s', choices_n p k s = Ok (l, s').
Proof.
  intros Hne. revert s. induction k as [|k IH]; intros s.
  - cbn. unfold ret. eauto.
  - cbn [choices_n].
    set (x := s O mod two53).
    assert (Hx : 0 <= x < two53) by (apply Z.mod_pos_bound; unfold two53; lia).
    assert (Hn : 0 < Z.of_nat (List.length p))
      by (destruct p; [congruence | cbn [List.length]; lia]).
    destruct (py_index_total p ((x * Z.of_nat (List.length p)) / two53)
                (fun n => s (S n))) as [a Ha].
    { split.
      - apply Z.div_pos; unfold two53 in *; lia.
      - apply Z.div_lt_upper_bound; unfold two53 in *; nia. }
    destruct (IH (fun n => s (S n))) as (l & s' & Hl).
    exists (a :: l), s'.
    rewrite (bind_ok_intro random_ _ s x (fun n => s (S n))) by reflexivity.
    rewrite (bind_ok_intro _ _ _ a _ Ha), (bind_ok_intro _ _ _ l _ Hl).
    reflexivity.
Qed.

(** ** Loops *)

Lemma foldM_inv {A B} (P : B -> Prop) (f : B -> A -> M B) (l : list A) :
  (forall x b s b' s', In x l -> P b -> f b x s = Ok (b', s') -> P b') ->
  forall b s b' s', foldM f l b s = Ok (b', s') -> P b -> P b'.
Proof.
  induction l as [|x l IH]; intros Hf b s b' s' H Hb.
  - cbn in H. injection H as <- _. exact Hb.
  - cbn [foldM] in H. apply bind_ok in H. destruct H as (b1 & s1 & H1 & H2).
    eapply IH; [| exact H2 | eapply Hf; [left; reflexivity | exact Hb | exact H1]].
    intros y c t c' t' Hy. apply Hf. right. exact Hy.
Qed.

Lemma foldM_total {A B} (f : B -> A -> M B) (l : list A) :
  (forall x b s, In x l -> exists b' s', f b x s = Ok (b', s')) ->
  forall b s, exists b' s', foldM f l b s = Ok (b', s').
Proof.
  induction l as [|x l IH]; intros Hf b s.
  - cbn. unfold ret. eauto.
  - cbn [foldM]. destruct (Hf x b s (or_introl eq_refl)) as (b1 & s1 & H1).
    rewrite (bind_ok_intro _ _ _ _ _ H1).
    apply IH. intros y c t Hy. apply Hf. right. exact Hy.
Qed.

Lemma in_zrange a b n : In n (zrange a b) <-> a <= n < b.
Proof.
  unfold zrange. rewrite in_map_iff. split.
  - intros (k & <- & Hk). apply in_seq in Hk. lia.
  - intros H. exists (Z.to_nat (n - a)). split; [lia|]. apply in_seq. lia.
Qed.

Lemma NoDup_zrange a b : NoDup (zrange a b).
Proof.
  unfold zrange. apply NoDup_map_NoDup_ForallPairs; [| apply seq_NoDup].
  intros x y _ _ H. lia.
Qed.

(** ** GraphGenerator: node creation *)

Lemma existsb_eqb_false n l : ~ In n l -> existsb (Z.eqb n) l = false.
Proof.
  intros H. destruct (existsb (Z.eqb n) l) eqn:E; [|reflexivity].
  apply existsb_exists in E. destruct E as (x & Hx & Heq).
  apply Z.eqb_eq in Heq. subst. contradiction.
Qed.

Lemma existsb_eqb_true n l : In n l -> existsb (Z.eqb n) l = true.
Proof.
  intros H. apply existsb_exists. exists n. split; [exact H | apply Z.eqb_refl].
Qed.

Lemma fold_add_nodes l g :
  NoDup l -> (forall x, In x l -> ~ In x (g_nodes g)) ->
  fold_left add_node l g = mkGraph (g_directed g) (g_nodes g ++ l) (g_edges g).
Proof.
  revert g. induction l as [|x l IH]; intros g Hnd Hout.
  - destruct g; cbn. rewrite app_nil_r. reflexivity.
  - inversion Hnd as [|? ? Hx Hnd']; subst. cbn [fold_left].
    unfold add_node at 2.
    rewrite existsb_eqb_false by (apply Hout; left; reflexivity).
    rewrite IH; cbn.
    + rewrite <- app_assoc. reflexivity.
    + exact Hnd'.
    + intros y Hy Hin. apply in_app_or in Hin. destruct Hin as [Hin|[<-|[]]].
      * eapply Hout; [right; exact Hy | exact Hin].
      * contradiction.
Qed.

Lemma add_node_present g n : In n (g_nodes g) -> add_node g n = g.
Proof. intros H. unfold add_node. rewrite existsb_eqb_true by exact H. reflexivity. Qed.

(** ** GraphGenerator: the invariant of the edge loops *)

Lemma endpoints_update d u v w e :
  endpoints (if same_edge d u v e then let '(a, b, _) := e in (a, b, w) else e) = endpoints e.
Proof. destruct e as [[a b] c]. destruct (same_edge d u v _); reflexivity. Qed.

Lemma add_edge_inv directed weighted size g i j w :
  graph_inv directed weighted size g -> 0 <= i < j -> j < size -> weight_ok weighted w ->
  graph_inv directed weighted size (add_edge g i j w).
Proof.
  intros (Hd & Hn & He & Hnd) Hij Hj Hw.
  unfold add_edge.
  rewrite (add_node_present g i) by (rewrite Hn; apply in_zrange; lia).
  rewrite (add_node_present g j) by (rewrite Hn; apply in_zrange; lia).
  destruct (existsb (same_edge (g_directed g) i j) (g_edges g)) eqn:E.
  - refine (conj _ (conj _ (conj _ _))); cbn; try assumption.
    + intros u v w' Hin. apply in_map_iff in Hin. destruct Hin as (e & Heq & He').
      destruct e as [[a b] c].
      pose proof (He a b c He') as Habc.
      destruct (same_edge _ i j _); injection Heq as <- <- <-; [|exact Habc].
      destruct Habc as (? & ? & _). auto.
    + rewrite map_map. erewrite map_ext; [exact Hnd|].
      intros e. apply endpoints_update.
  - refine (conj _ (conj _ (conj _ _))); cbn; try assumption.
    + intros u v w' Hin. apply in_app_or in Hin. destruct Hin as [Hin|[Heq|[]]].
      * apply He. exact Hin.
      * injection Heq as <- <- <-. auto.
    + rewrite map_app. cbn.
      apply (Permutation_NoDup (Permutation_cons_append _ _)).
      constructor; [|exact Hnd].
      intros Hin. apply in_map_iff in Hin. destruct Hin as ([[a b] c] & Heq & Hin).
      cbn in Heq. injection Heq as -> ->.
      assert (existsb (same_edge (g_directed g) i j) (g_edges g) = true) as E'.
      { apply existsb_exists. exists (i, j, c). split; [exact Hin|].
        cbn. rewrite !Z.eqb_refl. reflexivity. }
      congruence.
Qed.

Lemma edge_step_inv directed weighted size i g j s g' s' :
  graph_inv directed weighted size g -> 0 <= i -> In j (zrange (i + 1) size) ->
  edge_step weighted i g j s = Ok (g', s') -> graph_inv directed weighted size g'.
Proof.
  intros Hg Hi Hj H. apply in_zrange in Hj.
  unfold edge_step in H. apply bind_ok in H. destruct H as (x & s1 & _ & H).
  destruct (lt_point3 x).
  - apply bind_ok in H. destruct H as (w & s2 & Hw & H).
    injection H as <- _. apply add_edge_inv; try assumption; try lia.
    destruct weighted; cbn.
    + eapply randint_ok; exact Hw.
    + injection Hw as <- _. reflexivity.
  - injection H as <- _. exact Hg.
Qed.

Lemma edge_step_total weighted i g j s :
  exists g' s', edge_step weighted i g j s = Ok (g', s').
Proof.
  unfold edge_step.
  rewrite (bind_ok_intro random_ _ s (s O mod two53) (fun n => s (S n))) by reflexivity.
  destruct (lt_point3 _).
  - destruct (randint_total 1 10 (fun n => s (S n))) as (w & s2 & Hw); [lia|].
    destruct weighted.
    + rewrite (bind_ok_intro _ _ _ _ _ Hw). unfold ret. eauto.
    + unfold bind, ret. eauto.
  - unfold ret. eauto.
Qed.

Lemma generate_graph_spec directed weighted size s :
  exists g s', GraphGenerator_generate directed weighted size s = Ok (g, s') /\
               graph_inv directed weighted size g.
Proof.
  unfold GraphGenerator_generate.
  set (g0 := fold_left add_node (zrange 0 size) (empty_graph directed)).
  assert (H0 : graph_inv directed weighted size g0).
  { unfold g0. rewrite fold_add_nodes.
    - refine (conj _ (conj _ (conj _ _))); cbn; try tauto. constructor.
    - apply NoDup_zrange.
    - intros x _ []. }
  destruct (foldM_total (fun g i => foldM (edge_step weighted i) (zrange (i + 1) size) g)
              (zrange 0 size)) with (b := g0) (s := s) as (g & s' & Hg).
  { intros i b t _. apply foldM_total. intros j c u _. apply edge_step_total. }
  exists g, s'. split; [exact Hg|].
  revert Hg H0. apply foldM_inv.
  intros i b t b' t' Hi Hb Hstep. apply in_zrange in Hi.
  revert Hstep Hb. apply foldM_inv.
  intros j c u c' u' Hj Hc Hs. eapply edge_step_inv; eauto. lia.
Qed.

Lemma edge_lt g directed weighted size u v :
  graph_inv directed weighted size g -> edge g u v -> u < v.
Proof. intros (_ & _ & He & _) (w & Hw). apply (He u v w Hw). Qed.

Lemma reach_lt g directed weighted size u v :
  graph_inv directed weighted size g -> clos_trans Z (edge g) u v -> u < v.
Proof.
  intros Hg H. induction H as [x y Hxy | x y z _ IH1 _ IH2].
  - eapply edge_lt; eauto.
  - lia.
Qed.

(** ** Determinism: a computation depends only on the draws it reads *)

Lemma resp_ret {A} (a : A) : resp (ret a).
Proof. intros s1 s2 H. cbn. auto. Qed.

Lemma resp_raise {A} e : resp (@raise A e).
Proof. intros s1 s2 H. reflexivity. Qed.

Lemma resp_draw : resp draw.
Proof. intros s1 s2 H. cbn. split; [apply H | intros n; apply H]. Qed.

Lemma resp_bind {A B} (m : M A) (f : A -> M B) :
  resp m -> (forall a, resp (f a)) -> resp (bind m f).
Proof.
  intros Hm Hf s1 s2 H. unfold bind. specialize (Hm s1 s2 H).
  destruct (m s1) as [[a1 t1]|e1], (m s2) as [[a2 t2]|e2]; try contradiction.
  - destruct Hm as [<- Ht]. apply Hf. exact Ht.
  - exact Hm.
Qed.

#[local] Hint Resolve resp_ret resp_raise resp_draw resp_bind : resp.

Lemma resp_random_ : resp random_.
Proof. unfold random_. auto with resp. Qed.

Lemma resp_randint a b : resp (randint a b).
Proof. unfold randint. destruct (_ <=? _); auto with resp. Qed.

#[local] Hint Resolve resp_random_ resp_randint : resp.

Lemma resp_foldM {A B} (f : B -> A -> M B) l :
  (forall b x, resp (f b x)) -> forall b, resp (foldM f l b).
Proof.
  intros Hf. induction l as [|x l IH]; intros b; cbn [foldM]; auto with resp.
Qed.

Lemma resp_edge_step weighted i g j : resp (edge_step weighted i g j).
Proof.
  unfold edge_step. apply resp_bind; [auto with resp|]. intros x.
  destruct (lt_point3 x); [|auto with resp].
  apply resp_bind; [destruct weighted|]; auto with resp.
Qed.

Lemma resp_generate directed weighted size :
  resp (GraphGenerator_generate directed weighted size).
Proof.
  unfold GraphGenerator_generate. apply resp_foldM. intros b i.
  apply resp_foldM. intros c j. apply resp_edge_step.
Qed.

(** ** StringGenerator lemmas *)

Lemma repeatM_inv {A} (P : nat -> A -> Prop) (f : A -> M A) n :
  (forall k x s y s', P k x -> f x s = Ok (y, s') -> P (S k) y) ->
  forall a s b s', P O a -> repeatM n f a s = Ok (b, s') -> P n b.
Proof.
  revert P. induction n as [|n IH]; intros P Hf a s b s' Ha H.
  - cbn in H. injection H as <- _. exact Ha.
  - cbn [repeatM] in H. apply bind_ok in H. destruct H as (a1 & s1 & H1 & H2).
    apply (IH (fun k => P (S k))) in H2; [exact H2| |eapply Hf; eauto].
    intros k x t y t' Hx Hy. eapply Hf; eauto.
Qed.

Lemma repeatM_total {A} (Q : A -> Prop) (f : A -> M A) n :
  (forall x s, Q x -> exists y s', f x s = Ok (y, s') /\ Q y) ->
  forall a s, Q a -> exists b s', repeatM n f a s = Ok (b, s').
Proof.
  intros Hf. induction n as [|n IH]; intros a s Ha.
  - cbn. unfold ret. eauto.
  - cbn [repeatM]. destruct (Hf a s Ha) as (y & s1 & H1 & Hy).
    rewrite (bind_ok_intro _ _ _ _ _ H1). apply IH. exact Hy.
Qed.

Lemma generate_spec alphabet n s str s' :
  generate alphabet n s = Ok (str, s') ->
  exists syms, str = join syms /\ Forall (fun x => In x alphabet) syms /\
               List.length syms = Z.to_nat n.
Proof.
  unfold generate, choices. intros H. apply bind_ok in H.
  destruct H as (syms & s1 & H1 & H2). injection H2 as <- _.
  apply choices_n_spec in H1. exists syms. tauto.
Qed.

Lemma generate_total alphabet n s :
  alphabet <> [] -> exists str s', generate alphabet n s = Ok (str, s').
Proof.
  intros Hne. unfold generate, choices.
  destruct (choices_n_total alphabet (Z.to_nat n) s Hne) as (l & s1 & Hl).
  rewrite (bind_ok_intro _ _ _ _ _ Hl). unfold ret. eauto.
Qed.

Lemma join_chars l :
  Forall is_char l ->
  py_list_of_string (join l) = l /\ String.length (join l) = List.length l.
Proof.
  induction l as [|x l IH]; intros H; [split; reflexivity|].
  inversion H as [|? ? (c & ->) Hl]; subst. destruct (IH Hl) as [IH1 IH2].
  change (join (String c "" :: l)) with (String c (join l)).
  unfold py_list_of_string in *. cbn [list_ascii_of_string map String.length List.length].
  rewrite IH1, IH2. split; reflexivity.
Qed.

Lemma hamming_join l1 l2 :
  Forall is_char l1 -> Forall is_char l2 -> hamming (join l1) (join l2) = diff_l l1 l2.
Proof.
  revert l2. induction l1 as [|x l1 IH]; intros l2 H1 H2; [reflexivity|].
  destruct l2 as [|y l2].
  - inversion H1 as [|? ? (c & ->) _]; reflexivity.
  - inversion H1 as [|? ? (c & ->) H1']; inversion H2 as [|? ? (d & ->) H2']; subst.
    cbn [join fold_right String.append hamming diff_l]. fold (join l1) (join l2).
    rewrite IH by assumption.
    destruct (ascii_dec c d), (string_dec (String c "") (String d "")); congruence.
Qed.

Lemma chars_of_join alphabet l c :
  Forall is_char alphabet -> Forall (fun x => In x alphabet) l ->
  In c (list_ascii_of_string (join l)) -> In (String c EmptyString) alphabet.
Proof.
  intros Ha Hl. induction Hl as [|x l Hx Hl IH]; [intros []|].
  pose proof (proj1 (Forall_forall _ _) Ha x Hx) as (d & ->).
  cbn. intros [<- | Hin]; [exact Hx | exact (IH Hin)].
Qed.

Lemma set_nth_length {A} (l : list A) i x : List.length (set_nth l i x) = List.length l.
Proof.
  revert i. induction l as [|y l IH]; intros [|i]; cbn; try rewrite IH; reflexivity.
Qed.

Lemma set_nth_Forall {A} (P : A -> Prop) l i x :
  Forall P l -> P x -> Forall P (set_nth l i x).
Proof.
  intros Hl Hx. revert i. induction Hl as [|y l Hy Hl IH]; intros [|i]; cbn;
    constructor; auto.
Qed.

Lemma diff_set_nth l0 l i x : (diff_l l0 (set_nth l i x) <= diff_l l0 l + 1)%nat.
Proof.
  revert l i. induction l0 as [|y l0 IH]; intros l i; [cbn; lia|].
  destruct l as [|z l]; [cbn; lia|]. destruct i as [|i]; cbn.
  - destruct (string_dec y x), (string_dec y z); lia.
  - specialize (IH l i). destruct (string_dec y z); lia.
Qed.

Lemma py_setitem_spec {A} (l : list A) i x s l' s' :
  py_setitem l i x s = Ok (l', s') -> exists n, l' = set_nth l n x.
Proof.
  unfold py_setitem. destruct (_ || _); [discriminate|].
  intros H. injection H as <- _. eauto.
Qed.

Lemma mutate_spec alphabet l s l' s' :
  mutate alphabet l s = Ok (l', s') ->
  exists n x, l' = set_nth l n x /\ In x alphabet.
Proof.
  unfold mutate. intros H.
  apply bind_ok in H. destruct H as (idx & s1 & _ & H).
  apply bind_ok in H. destruct H as (x & s2 & Hx & H).
  apply py_setitem_spec in H. destruct H as (n & ->).
  exists n, x. split; [reflexivity | eapply choice_in; eauto].
Qed.

Lemma mutate_total alphabet l s :
  alphabet <> [] -> l <> [] ->
  exists l' s', mutate alphabet l s = Ok (l', s') /\ List.length l' = List.length l.
Proof.
  intros Ha Hl. unfold mutate.
  assert (Hn : 0 < Z.of_nat (List.length l)) by (destruct l; [congruence | cbn; lia]).
  destruct (randint_total 0 (Z.of_nat (List.length l) - 1) s) as (idx & s1 & Hi); [lia|].
  pose proof (randint_ok _ _ _ _ _ Hi) as Hib.
  rewrite (bind_ok_intro _ _ _ _ _ Hi).
  destruct (choice_total alphabet s1 Ha) as (x & s2 & Hx).
  rewrite (bind_ok_intro _ _ _ _ _ Hx).
  unfold py_setitem.
  destruct (Z.ltb_spec idx 0); [lia|].
  destruct (Z.ltb_spec idx 0); [lia|].
  destruct (Z.leb_spec (Z.of_nat (List.length l)) idx); [lia|].
  cbn. unfold ret. do 2 eexists. split; [reflexivity | apply set_nth_length].
Qed.

Lemma diff_l_refl l : diff_l l l = O.
Proof.
  induction l as [|x l IH]; [reflexivity|]. cbn.
  destruct (string_dec x x); [exact IH | congruence].
Qed.

Lemma alphabet_chars alphabet l :
  Forall is_char alphabet -> Forall (fun x => In x alphabet) l -> Forall is_char l.
Proof.
  intros Ha Hl. eapply Forall_impl; [|exact Hl].
  intros x Hx. exact (proj1 (Forall_forall _ _) Ha x Hx).
Qed.

(** What the [similar=True] branch of [generate_pair] returns: [str1] is
    [len1] drawn symbols, [str2] the same number of symbols, differing from
    them in at most [len1 // 3] positions. *)
Lemma generate_pair_similar_spec alphabet len1 len2 s str1 str2 s' :
  Forall is_char alphabet ->
  generate_pair alphabet len1 len2 true s = Ok ((str1, str2), s') ->
  exists syms l, str1 = join syms /\ str2 = join l /\
    Forall (fun x => In x alphabet) syms /\ Forall (fun x => In x alphabet) l /\
    List.length syms = Z.to_nat len1 /\ List.length l = List.length syms /\
    Z.of_nat (diff_l syms l) <= len1 / 3.
Proof.
  intros Ha H. unfold generate_pair in H.
  apply bind_ok in H. destruct H as (s1 & t1 & Hg & H).
  cbv beta iota zeta in H.
  apply bind_ok in H. destruct H as (k & t2 & Hk & H).
  apply bind_ok in H. destruct H as (l & t3 & Hl & H).
  injection H as -> <- _.
  apply generate_spec in Hg. destruct Hg as (syms & -> & Hsyms & Hlen).
  pose proof (randint_ok _ _ _ _ _ Hk) as Hkb.
  destruct (join_chars syms (alphabet_chars _ _ Ha Hsyms)) as [Hpl _].
  rewrite Hpl in Hl.
  pose proof (repeatM_inv
    (fun n l => Forall (fun x => In x alphabet) l /\
                List.length l = List.length syms /\ (diff_l syms l <= n)%nat)
    (mutate alphabet) (Z.to_nat k)) as Hinv.
  destruct (Hinv) with (a := syms) (s := t2) (b := l) (s' := t3)
    as (Hl1 & Hl2 & Hl3); [| | exact Hl |].
  - intros n x t y t' (Hx1 & Hx2 & Hx3) Hm.
    apply mutate_spec in Hm. destruct Hm as (i & c & -> & Hc).
    split; [apply set_nth_Forall; assumption|].
    split; [rewrite set_nth_length; exact Hx2|].
    pose proof (diff_set_nth syms x i c). lia.
  - split; [exact Hsyms|]. split; [reflexivity|]. rewrite diff_l_refl. lia.
  - exists syms, l. repeat (split; [assumption || reflexivity|]). lia.
Qed.

Lemma generate_pair_similar_total alphabet len1 len2 s :
  alphabet <> [] -> Forall is_char alphabet -> 3 <= len1 ->
  exists p s', generate_pair alphabet len1 len2 true s = Ok (p, s').
Proof.
  intros Hne Ha Hlen. unfold generate_pair.
  destruct (generate_total alphabet len1 s Hne) as (str1 & t1 & Hg).
  rewrite (bind_ok_intro _ _ _ _ _ Hg). cbv beta iota zeta.
  apply generate_spec in Hg. destruct Hg as (syms & -> & Hsyms & Hl).
  destruct (join_chars syms (alphabet_chars _ _ Ha Hsyms)) as [Hpl _].
  rewrite Hpl.
  destruct (randint_total 1 (len1 / 3) t1) as (k & t2 & Hk).
  { apply Z.div_le_lower_bound; lia. }
  rewrite (bind_ok_intro _ _ _ _ _ Hk).
  destruct (repeatM_total (fun l => l <> []) (mutate alphabet) (Z.to_nat k))
    with (a := syms) (s := t2) as (l & t3 & Hr).
  - intros x t Hx. destruct (mutate_total alphabet x t Hne Hx) as (y & t' & Hy & Hyl).
    exists y, t'. split; [exact Hy|]. intros ->. cbn in Hyl.
    destruct x; [congruence | discriminate].
  - intros ->. cbn in Hl. lia.
  - rewrite (bind_ok_intro _ _ _ _ _ Hr). unfold ret. eauto.
Qed.

Lemma generate_pair_short_err alphabet len1 len2 s :
  alphabet <> [] -> len1 < 3 ->
  generate_pair alphabet len1 len2 true s = Err ValueError.
Proof.
  intros Hne Hlen. unfold generate_pair.
  destruct (generate_total alphabet len1 s Hne) as (str1 & t1 & Hg).
  rewrite (bind_ok_intro _ _ _ _ _ Hg). cbv beta iota zeta.
  unfold bind at 1. rewrite randint_err; [reflexivity|].
  assert (len1 / 3 < 1) by (apply Z.div_lt_upper_bound; lia). lia.
Qed.

Lemma StringGenerator_init_nonempty opt : StringGenerator_init opt <> [].
Proof. unfold StringGenerator_init, default_alphabet. destruct opt as [[|x l]|]; congruence. Qed.

Lemma default_alphabet_chars : Forall is_char default_alphabet.
Proof. repeat constructor; eexists; reflexivity. Qed.

(** * Claims *)

(** ** C1 *)

(** C1, as stated: for any alphabet, the similar-mode pair is within
    Hamming distance [max(1, len1 // 3)] and [len(str2) == len(str1)].  It
    fails for the alphabet [['AB']], whose symbol has two characters:
    [generate_pair(3, 1, True)] returns [('ABABAB', 'AABABAB')]. *)
Lemma similarity_bound_any_alphabet_fails :
  ~ (forall alphabet len1 len2 s str1 str2 s',
       0 < len1 -> 0 < len2 ->
       generate_pair alphabet len1 len2 true s = Ok ((str1, str2), s') ->
       Z.of_nat (hamming str1 str2) <= Z.max 1 (len1 / 3) /\
       String.length str2 = String.length str1).
Proof.
  intros H.
  destruct (generate_pair ["AB"%string] 3 1 true sample_entropy) as [[[a b] t]|e] eqn:E;
    [| vm_compute in E; discriminate E].
  destruct (H ["AB"%string] 3 1 sample_entropy a b t ltac:(lia) ltac:(lia) E) as [_ Hl].
  vm_compute in E. injection E as <- <- _. vm_compute in Hl. discriminate Hl.
Qed.

(** C1 (amended): for every positive [len1] and [len2] and every alphabet
    whose symbols are single characters, when [generate_pair(len1, len2,
    similar=True)] returns [(str1, str2)], the Hamming distance between
    them is at most [max(1, len1 // 3)] and [len(str2) == len(str1)]. *)
Theorem generate_pair_similar_bound alphabet len1 len2 s str1 str2 s' :
  Forall is_char alphabet -> 0 < len1 -> 0 < len2 ->
  generate_pair alphabet len1 len2 true s = Ok ((str1, str2), s') ->
  Z.of_nat (hamming str1 str2) <= Z.max 1 (len1 / 3) /\
  String.length str2 = String.length str1.
Proof.
  intros Ha _ _ H.
  destruct (generate_pair_similar_spec _ _ _ _ _ _ _ Ha H)
    as (syms & l & -> & -> & Hs & Hl & _ & Hlen & Hd).
  pose proof (alphabet_chars _ _ Ha Hs) as Cs.
  pose proof (alphabet_chars _ _ Ha Hl) as Cl.
  rewrite hamming_join by assumption.
  rewrite (proj2 (join_chars _ Cs)), (proj2 (join_chars _ Cl)).
  split; lia.
Qed.

Lemma generate_pair_similar_bound_witness :
  match generate_pair default_alphabet 6 1 true sample_entropy with
  | Ok ((str1, str2), _) =>
      Z.of_nat (hamming str1 str2) <= Z.max 1 (6 / 3) /\
      String.length str2 = String.length str1
  | Err _ => False
  end.
Proof.
  destruct (generate_pair default_alphabet 6 1 true sample_entropy)
    as [[[str1 str2] t]|e] eqn:E.
  - apply (generate_pair_similar_bound default_alphabet 6 1 sample_entropy str1 str2 t);
      [apply default_alphabet_chars | lia | lia | exact E].
  - vm_compute in E. discriminate E.
Defined.

(** ** C2 *)

(** C2: with the default alphabet, [generate_pair(1, len2, similar=True)]
    raises [ValueError] from [random.randint(1, 0)]: no mutation count is
    drawn from [{1, ..., max(1, 1 // 3)} = {1}]. *)
Theorem generate_pair_len1_one_raises len2 s :
  generate_pair (StringGenerator_init None) 1 len2 true s = Err ValueError.
Proof.
  apply generate_pair_short_err; [apply StringGenerator_init_nonempty | lia].
Qed.

(** ** C3 *)

(** C3: a directed [GraphGenerator] returns, for every [size], a graph whose
    edges [(u, v)] all satisfy [u < v]; hence no self-loop, no 2-cycle, no
    ordered pair stored twice, and no cycle at all. *)
Theorem directed_edges_increasing weighted size s :
  exists g s', GraphGenerator_generate true weighted size s = Ok (g, s') /\
    g_directed g = true /\
    (forall u v, edge g u v -> u < v) /\
    (forall u, ~ edge g u u) /\
    (forall u v, edge g u v -> ~ edge g v u) /\
    NoDup (map endpoints (g_edges g)) /\
    (forall u, ~ clos_trans Z (edge g) u u).
Proof.
  destruct (generate_graph_spec true weighted size s) as (g & s' & Hg & Hinv).
  exists g, s'. split; [exact Hg|].
  pose proof (fun u v => edge_lt g _ _ _ u v Hinv) as Hlt.
  split; [apply Hinv|].
  split; [exact Hlt|].
  split; [intros u Hu; pose proof (Hlt _ _ Hu); lia|].
  split; [intros u v Huv Hvu; pose proof (Hlt _ _ Huv); pose proof (Hlt _ _ Hvu); lia|].
  split; [apply Hinv|].
  intros u Hu. pose proof (reach_lt _ _ _ _ _ _ Hinv Hu). lia.
Qed.

(** ** C4 *)

(** C4, as stated: [generate_pair(0, 5, False)] and [generate_pair(5, -1,
    True)] raise [ValueError] for a generator built from the empty
    alphabet.  Neither call raises. *)
Lemma invalid_arguments_not_rejected :
  ~ ((forall s, generate_pair (StringGenerator_init (Some [])) 0 5 false s = Err ValueError) /\
     (forall s, generate_pair (StringGenerator_init (Some [])) 5 (-1) true s = Err ValueError)).
Proof.
  intros [H1 _]. specialize (H1 sample_entropy). vm_compute in H1. discriminate H1.
Qed.

(** C4 (amended): none of the three inputs is rejected.  For an alphabet of
    single-character symbols, [generate_pair(0, 5, False)] returns [''] and
    a 5-symbol string, [generate_pair(5, -1, True)] returns two 5-symbol
    strings ([len2] is ignored), and a generator built from the empty
    alphabet gets the default alphabet [['A', 'B', 'C']]. *)
Theorem invalid_arguments_accepted opt s :
  Forall is_char (StringGenerator_init opt) ->
  (exists str2 s', generate_pair (StringGenerator_init opt) 0 5 false s
                     = Ok ((EmptyString, str2), s') /\ String.length str2 = 5%nat) /\
  (exists str1 str2 s', generate_pair (StringGenerator_init opt) 5 (-1) true s
                     = Ok ((str1, str2), s') /\
                   String.length str1 = 5%nat /\ String.length str2 = 5%nat) /\
  StringGenerator_init (Some []) = default_alphabet.
Proof.
  intros Ha. pose proof (StringGenerator_init_nonempty opt) as Hne.
  set (A := StringGenerator_init opt) in *.
  split; [|split; [|reflexivity]].
  - unfold generate_pair.
    destruct (generate_total A 0 s Hne) as (str1 & t1 & H1).
    rewrite (bind_ok_intro _ _ _ _ _ H1). cbv beta iota.
    destruct (generate_total A 5 t1 Hne) as (str2 & t2 & H2).
    rewrite (bind_ok_intro _ _ _ _ _ H2).
    apply generate_spec in H1. destruct H1 as (syms1 & -> & _ & Hl1).
    apply generate_spec in H2. destruct H2 as (syms2 & -> & Hs2 & Hl2).
    destruct syms1; [|discriminate Hl1].
    exists (join syms2), t2. split; [reflexivity|].
    rewrite (proj2 (join_chars _ (alphabet_chars _ _ Ha Hs2))), Hl2. reflexivity.
  - destruct (generate_pair_similar_total A 5 (-1) s Hne Ha ltac:(lia))
      as ([str1 str2] & t & H).
    exists str1, str2, t. split; [exact H|].
    destruct (generate_pair_similar_spec _ _ _ _ _ _ _ Ha H)
      as (syms & l & -> & -> & Hs & Hl & Hlen1 & Hlen2 & _).
    rewrite (proj2 (join_chars _ (alphabet_chars _ _ Ha Hs))).
    rewrite (proj2 (join_chars _ (alphabet_chars _ _ Ha Hl))).
    split; lia.
Qed.

Lemma invalid_arguments_accepted_witness :
  Forall is_char (StringGenerator_init None) /\
  ((exists str2 s', generate_pair (StringGenerator_init None) 0 5 false sample_entropy
                      = Ok ((EmptyString, str2), s') /\ String.length str2 = 5%nat) /\
   (exists str1 str2 s', generate_pair (StringGenerator_init None) 5 (-1) true sample_entropy
                      = Ok ((str1, str2), s') /\
                    String.length str1 = 5%nat /\ String.length str2 = 5%nat) /\
   StringGenerator_init (Some []) = default_alphabet).
Proof.
  split; [apply default_alphabet_chars|].
  apply (invalid_arguments_accepted None sample_entropy). apply default_alphabet_chars.
Defined.

(** ** C5 *)

(** C5, as stated: [generate(size)] rejects a negative [size].  It returns
    the empty graph for [size = -1]. *)
Lemma negative_size_not_rejected :
  GraphGenerator_generate false true (-1) sample_entropy
    = Ok (empty_graph false, sample_entropy).
Proof. reflexivity. Qed.

(** C5 (amended): for every negative [size], [generate(size)] raises
    nothing: it returns a graph with no nodes and no edges and draws no
    entropy. *)
Theorem negative_size_empty_graph directed weighted size s :
  size < 0 ->
  GraphGenerator_generate directed weighted size s = Ok (empty_graph directed, s).
Proof.
  intros H. unfold GraphGenerator_generate, zrange.
  replace (Z.to_nat (size - 0)) with O by lia. reflexivity.
Qed.

Lemma negative_size_empty_graph_witness :
  -3 < 0 /\
  GraphGenerator_generate true false (-3) sample_entropy = Ok (empty_graph true, sample_entropy).
Proof.
  split; [lia|]. apply negative_size_empty_graph. lia.
Defined.

(** ** C6 *)

(** C6: for every [size >= 0] and every configuration, [generate(size)]
    returns a graph with exactly [size] nodes, and its nodes are exactly
    [0, ..., size - 1]. *)
Theorem generate_node_set directed weighted size s :
  0 <= size ->
  exists g s', GraphGenerator_generate directed weighted size s = Ok (g, s') /\
    Z.of_nat (List.length (g_nodes g)) = size /\ NoDup (g_nodes g) /\
    (forall n, In n (g_nodes g) <-> 0 <= n < size).
Proof.
  intros Hs.
  destruct (generate_graph_spec directed weighted size s) as (g & s' & Hg & (_ & Hn & _)).
  exists g, s'. split; [exact Hg|]. rewrite Hn.
  split; [unfold zrange; rewrite length_map, length_seq; lia|].
  split; [apply NoDup_zrange | intros n; apply in_zrange].
Qed.

Lemma generate_node_set_witness :
  0 <= 5 /\
  exists g s', GraphGenerator_generate true true 5 sample_entropy = Ok (g, s') /\
    Z.of_nat (List.length (g_nodes g)) = 5 /\ NoDup (g_nodes g) /\
    (forall n, In n (g_nodes g) <-> 0 <= n < 5).
Proof.
  split; [lia|]. apply generate_node_set. lia.
Defined.

(** ** C7 *)

(** C7: every edge [(u, v, w)] of a generated graph has [w = 1] when the
    generator is unweighted and [1 <= w <= 10] when it is weighted. *)
Theorem generate_edge_weights directed weighted size s :
  exists g s', GraphGenerator_generate directed weighted size s = Ok (g, s') /\
    forall u v w, In (u, v, w) (g_edges g) ->
      if weighted then 1 <= w <= 10 else w = 1.
Proof.
  destruct (generate_graph_spec directed weighted size s) as (g & s' & Hg & (_ & _ & He & _)).
  exists g, s'. split; [exact Hg|].
  intros u v w Hin. apply (He u v w Hin).
Qed.

(** ** C8 *)

(** C8: two runs of [generate(size)] on the same entropy stream return the
    same graph: the same edges with the same weights. *)
Theorem generate_deterministic directed weighted size s1 s2 :
  same_stream s1 s2 ->
  exists g t1 t2, GraphGenerator_generate directed weighted size s1 = Ok (g, t1) /\
                  GraphGenerator_generate directed weighted size s2 = Ok (g, t2).
Proof.
  intros H.
  pose proof (resp_generate directed weighted size s1 s2 H) as Hr.
  destruct (generate_graph_spec directed weighted size s1) as (g & t1 & Hg & _).
  rewrite Hg in Hr.
  destruct (GraphGenerator_generate directed weighted size s2) as [[g2 t2]|e]; [|contradiction].
  destruct Hr as [<- _]. exists g, t1, t2. split; [exact Hg | reflexivity].
Qed.

Lemma generate_deterministic_witness :
  same_stream sample_entropy (fun n => sample_entropy n + 0) /\
  exists g t1 t2,
    GraphGenerator_generate true true 6 sample_entropy = Ok (g, t1) /\
    GraphGenerator_generate true true 6 (fun n => sample_entropy n + 0) = Ok (g, t2).
Proof.
  assert (H : same_stream sample_entropy (fun n => sample_entropy n + 0))
    by (intros n; lia).
  split; [exact H|]. apply generate_deterministic. exact H.
Defined.

(** ** C9 *)

(** C9: for [len1] in [{1, 2}], [generate_pair(len1, len2, similar=True)]
    raises [ValueError] from [random.randint(1, len1 // 3)] = [randint(1,
    0)], whatever the alphabet and [len2]. *)
Theorem short_similar_pair_raises opt len1 len2 s :
  len1 = 1 \/ len1 = 2 ->
  generate_pair (StringGenerator_init opt) len1 len2 true s = Err ValueError.
Proof.
  intros H. apply generate_pair_short_err; [apply StringGenerator_init_nonempty | lia].
Qed.

Lemma short_similar_pair_raises_witness :
  (2 = 1 \/ 2 = 2) /\
  generate_pair (StringGenerator_init (Some ["A"; "C"; "G"; "T"]%string)) 2 12 true
    sample_entropy = Err ValueError.
Proof.
  split; [right; reflexivity|]. apply short_similar_pair_raises. right; reflexivity.
Defined.

(** ** C10 *)

(** C10: a [StringGenerator] built with no alphabet or the empty alphabet
    gets [['A', 'B', 'C']], and every string that [generate] and
    [generate_pair] then return is made of the characters [A], [B], [C]. *)
Theorem empty_alphabet_defaults opt :
  opt = None \/ opt = Some [] ->
  StringGenerator_init opt = default_alphabet /\
  (forall n s str s', generate (StringGenerator_init opt) n s = Ok (str, s') ->
                      drawn_from_default str) /\
  (forall len1 len2 similar s str1 str2 s',
      generate_pair (StringGenerator_init opt) len1 len2 similar s = Ok ((str1, str2), s') ->
      drawn_from_default str1 /\ drawn_from_default str2).
Proof.
  intros Hopt.
  assert (Hi : StringGenerator_init opt = default_alphabet)
    by (destruct Hopt as [-> | ->]; reflexivity).
  rewrite Hi. split; [reflexivity|].
  pose proof default_alphabet_chars as Ha.
  assert (Hgen : forall n s str s', generate default_alphabet n s = Ok (str, s') ->
                                    drawn_from_default str).
  { intros n s str s' H c Hc. apply generate_spec in H.
    destruct H as (syms & -> & Hs & _). eapply chars_of_join; eauto. }
  split; [exact Hgen|].
  intros len1 len2 [|] s str1 str2 s' H.
  - destruct (generate_pair_similar_spec _ _ _ _ _ _ _ Ha H)
      as (syms & l & -> & -> & Hs & Hl & _).
    split; intros c Hc; [exact (chars_of_join _ _ c Ha Hs Hc) | exact (chars_of_join _ _ c Ha Hl Hc)].
  - unfold generate_pair in H. apply bind_ok in H. destruct H as (a & t1 & H1 & H).
    cbv beta iota in H. apply bind_ok in H. destruct H as (b & t2 & H2 & H).
    injection H as <- <- _. split; eapply Hgen; eauto.
Qed.

Lemma empty_alphabet_defaults_witness :
  (@None (list string) = None \/ @None (list string) = Some []) /\
  StringGenerator_init None = default_alphabet /\
  (forall n s str s', generate (StringGenerator_init None) n s = Ok (str, s') ->
                      drawn_from_default str) /\
  (forall len1 len2 similar s str1 str2 s',
      generate_pair (StringGenerator_init None) len1 len2 similar s = Ok ((str1, str2), s') ->
      drawn_from_default str1 /\ drawn_from_default str2).
Proof.
  split; [left; reflexivity|]. apply empty_alphabet_defaults. left; reflexivity.
Defined.

(** * Further properties of the module *)

(** ** LinearDataGenerator *)

(** [LinearDataGenerator.generate(size)] is [1, 2, ..., size] in order:
    [size] elements, the [i]-th being [i + 1], and nothing for [size <= 0]. *)
Theorem linear_generate_values size :
  List.length (LinearDataGenerator_generate size) = Z.to_nat size /\
  forall i, nth_error (LinearDataGenerator_generate size) i =
            if (i <? Z.to_nat size)%nat then Some (Z.of_nat i + 1) else None.
Proof.
  unfold LinearDataGenerator_generate, zrange.
  replace (size + 1 - 1) with size by lia.
  split; [rewrite length_map, length_seq; reflexivity|].
  intros i. rewrite nth_error_map, nth_error_seq.
  destruct (i <? Z.to_nat size)%nat; cbn [option_map]; [f_equal; lia | reflexivity].
Qed.

(** ** RandomDataGenerator *)

Lemma mapM_randint {A} low high (l : list A) s :
  low <= high ->
  exists ys s', mapM (fun _ => randint low high) l s = Ok (ys, s') /\
                List.length ys = List.length l /\ Forall (fun x => low <= x <= high) ys.
Proof.
  intros H. revert s. induction l as [|x l IH]; intros s.
  - cbn. unfold ret. eauto.
  - cbn [mapM]. destruct (randint_total low high s H) as (y & s1 & Hy).
    rewrite (bind_ok_intro _ _ _ _ _ Hy).
    destruct (IH s1) as (ys & s' & Hys & Hl & HF).
    rewrite (bind_ok_intro _ _ _ _ _ Hys).
    exists (y :: ys), s'. split; [reflexivity|]. split; [cbn; lia|].
    constructor; [eapply randint_ok; eauto | exact HF].
Qed.

(** For [low <= high], [RandomDataGenerator(low, high).generate(size)]
    returns [max(0, size)] integers, each in [[low, high]]. *)
Theorem random_generate_in_range low high size s :
  low <= high ->
  exists l s', RandomDataGenerator_generate low high size s = Ok (l, s') /\
    List.length l = Z.to_nat size /\ Forall (fun x => low <= x <= high) l.
Proof.
  intros H. unfold RandomDataGenerator_generate.
  destruct (mapM_randint low high (zrange 0 size) s H) as (l & s' & Hl & Hlen & HF).
  exists l, s'. split; [exact Hl|]. split; [|exact HF].
  rewrite Hlen. unfold zrange. rewrite length_map, length_seq. f_equal. lia.
Qed.

Lemma random_generate_in_range_witness :
  0 <= 50 /\
  exists l s', RandomDataGenerator_generate 0 50 7 sample_entropy = Ok (l, s') /\
    List.length l = Z.to_nat 7 /\ Forall (fun x => 0 <= x <= 50) l.
Proof. split; [lia|]. apply random_generate_in_range. lia. Defined.

(** With an empty range ([high < low]), [RandomDataGenerator.generate(size)]
    raises [ValueError] as soon as [size > 0]; for [size <= 0] it returns
    the empty list and draws nothing. *)
Theorem random_generate_empty_range low high size s :
  high < low ->
  RandomDataGenerator_generate low high size s =
  if 0 <? size then Err ValueError else Ok ([], s).
Proof.
  intros H. unfold RandomDataGenerator_generate, zrange.
  destruct (Z.ltb_spec 0 size).
  - replace (Z.to_nat (size - 0)) with (S (Z.to_nat (size - 1))) by lia.
    cbn [seq map mapM]. unfold bind at 1. rewrite randint_err by exact H. reflexivity.
  - replace (Z.to_nat (size - 0)) with O by lia. reflexivity.
Qed.

Lemma random_generate_empty_range_witness :
  5 < 10 /\ RandomDataGenerator_generate 10 5 3 sample_entropy = Err ValueError.
Proof. split; [lia|]. apply (random_generate_empty_range 10 5 3 sample_entropy). lia. Defined.

(** ** NumberGenerator *)

(** Without a fixed value, [NumberGenerator(low, high).generate(size)]
    returns an integer in [[low, high]] when [low <= high] and raises
    [ValueError] when [high < low]; [size] plays no part. *)
Theorem number_generate_unfixed low high size s :
  (low <= high ->
   exists x s', NumberGenerator_generate (mkNumberGenerator low high None) size s
                  = Ok (x, s') /\ low <= x <= high) /\
  (high < low ->
   NumberGenerator_generate (mkNumberGenerator low high None) size s = Err ValueError).
Proof.
  unfold NumberGenerator_generate. cbn [ng_fixed ng_low ng_high]. split.
  - intros H. destruct (randint_total low high s H) as (x & s' & Hx).
    exists x, s'. split; [exact Hx | eapply randint_ok; eauto].
  - intros H. apply randint_err. exact H.
Qed.

(** ** DataGeneratorFactory *)

(** After [register_generator(name, g)], [get_generator(name)] returns [g],
    and every other name is looked up as before. *)
Theorem factory_register_get {G} (f : DataGeneratorFactory G) name g name' :
  get_generator (register_generator f name g) name' =
  if String.eqb name' name then Ok g else get_generator f name'.
Proof.
  unfold get_generator. induction f as [|[k v] f IH]; cbn.
  - destruct (String.eqb name' name); reflexivity.
  - destruct (String.eqb_spec name k) as [<-|Hk]; cbn.
    + destruct (String.eqb name' name); reflexivity.
    + destruct (String.eqb_spec name' k) as [->|Hk'].
      * apply String.eqb_neq in Hk. rewrite String.eqb_sym, Hk. reflexivity.
      * exact IH.
Qed.

(** [get_generator(name)] raises [ValueError] exactly when [name] was never
    registered; otherwise it returns a generator. *)
Theorem factory_get_missing {G} (f : DataGeneratorFactory G) name :
  get_generator f name = Err ValueError <-> ~ In name (map fst f).
Proof.
  unfold get_generator. induction f as [|[k v] f IH]; cbn.
  - split; [intros _ [] | reflexivity].
  - destruct (String.eqb_spec name k) as [->|Hk].
    + split; [discriminate | intros H; exfalso; apply H; left; reflexivity].
    + rewrite IH. split.
      * intros H [Heq|Hin]; [congruence | exact (H Hin)].
      * intros H Hin. apply H. right. exact Hin.
Qed.



(** ** GraphGenerator: edges for every configuration *)

Lemma all_pairs_length n : (2 * List.length (all_pairs n) = n * (n - 1))%nat.
Proof.
  induction n as [|m IH]; [reflexivity|]. cbn [all_pairs].
  rewrite length_app, length_map. unfold zrange. rewrite length_map, length_seq.
  replace (Z.to_nat (Z.of_nat m - 0)) with m by lia. nia.
Qed.

Lemma in_all_pairs n u v : 0 <= u < v -> v < Z.of_nat n -> In (u, v) (all_pairs n).
Proof.
  induction n as [|m IH]; intros Huv Hv; [lia|]. cbn [all_pairs].
  apply in_or_app. destruct (Z.eq_dec v (Z.of_nat m)) as [->|Hne].
  - right. apply in_map_iff. exists u. split; [reflexivity|]. apply in_zrange. lia.
  - left. apply IH; lia.
Qed.

(** In every configuration, each generated edge [(u, v, w)] has
    [0 <= u < v < size], and no unordered pair [{u, v}] carries two edges. *)
Theorem generate_edges_valid directed weighted size s :
  exists g s', GraphGenerator_generate directed weighted size s = Ok (g, s') /\
    (forall u v w, In (u, v, w) (g_edges g) -> 0 <= u < v /\ v < size) /\
    NoDup (map unordered (g_edges g)).
Proof.
  destruct (generate_graph_spec directed weighted size s) as (g & s' & Hg & (_ & _ & He & Hnd)).
  exists g, s'. split; [exact Hg|]. split.
  - intros u v w Hin. destruct (He u v w Hin) as (? & ? & _). auto.
  - erewrite map_ext_in; [exact Hnd|].
    intros [[a b] c] Hin. destruct (He a b c Hin) as (? & _ & _). cbn.
    rewrite Z.min_l, Z.max_r by lia. reflexivity.
Qed.

(** A graph of [size] nodes gets at most [size * (size - 1) / 2] edges:
    one per pair [i < j] visited by the loops. *)
Theorem generate_edge_count directed weighted size s :
  exists g s', GraphGenerator_generate directed weighted size s = Ok (g, s') /\
    2 * Z.of_nat (List.length (g_edges g)) <= size * (size - 1).
Proof.
  destruct (generate_graph_spec directed weighted size s) as (g & s' & Hg & (_ & _ & He & Hnd)).
  exists g, s'. split; [exact Hg|].
  assert (Hincl : incl (map endpoints (g_edges g)) (all_pairs (Z.to_nat size))).
  { intros [u v] Hin. apply in_map_iff in Hin. destruct Hin as ([[a b] c] & Heq & Hin).
    cbn in Heq. injection Heq as -> ->. destruct (He u v c Hin) as (? & ? & _).
    apply in_all_pairs; lia. }
  pose proof (NoDup_incl_length Hnd Hincl) as Hlen. rewrite length_map in Hlen.
  pose proof (all_pairs_length (Z.to_nat size)) as Hp.
  destruct (Z.le_gt_cases size 0) as [Hs|Hs].
  - replace (Z.to_nat size) with O in * by lia. cbn in Hlen.
    assert (List.length (g_edges g) = O) as -> by lia. nia.
  - assert (H2 : (2 * List.length (g_edges g) <= Z.to_nat size * (Z.to_nat size - 1))%nat) by lia.
    apply Nat2Z.inj_le in H2. rewrite Nat2Z.inj_mul, Nat2Z.inj_mul, Nat2Z.inj_sub in H2 by lia.
    rewrite Z2Nat.id in H2 by lia. lia.
Qed.

(** ** StringGenerator: lengths and failures *)

(** With an alphabet of single characters, [StringGenerator.generate(size)]
    returns a string of exactly [max(0, size)] characters, all taken from
    the alphabet. *)
Theorem string_generate_length alphabet size s :
  alphabet <> [] -> Forall is_char alphabet ->
  exists str s', generate alphabet size s = Ok (str, s') /\
    String.length str = Z.to_nat size /\
    (forall c, In c (list_ascii_of_string str) -> In (String c EmptyString) alphabet).
Proof.
  intros Hne Ha. destruct (generate_total alphabet size s Hne) as (str & s' & H).
  exists str, s'. split; [exact H|].
  apply generate_spec in H. destruct H as (syms & -> & Hs & Hl).
  split; [rewrite (proj2 (join_chars _ (alphabet_chars _ _ Ha Hs))); exact Hl|].
  intros c Hc. exact (chars_of_join _ _ c Ha Hs Hc).
Qed.

Lemma string_generate_length_witness :
  ["A"; "C"; "G"; "T"]%string <> [] /\ Forall is_char ["A"; "C"; "G"; "T"]%string /\
  exists str s', generate ["A"; "C"; "G"; "T"]%string 10 sample_entropy = Ok (str, s') /\
    String.length str = Z.to_nat 10 /\
    (forall c, In c (list_ascii_of_string str) ->
               In (String c EmptyString) ["A"; "C"; "G"; "T"]%string).
Proof.
  assert (Ha : Forall is_char ["A"; "C"; "G"; "T"]%string)
    by (repeat constructor; eexists; reflexivity).
  assert (Hne : ["A"; "C"; "G"; "T"]%string <> []) by (intros H; discriminate H).
  split; [exact Hne|]. split; [exact Ha|]. apply string_generate_length; assumption.
Defined.

(** With [similar=False], [generate_pair(len1, len2)] never raises and
    returns strings of [max(0, len1)] and [max(0, len2)] characters, for a
    generator whose symbols are single characters. *)
Theorem pair_not_similar_lengths opt len1 len2 s :
  Forall is_char (StringGenerator_init opt) ->
  exists str1 str2 s', generate_pair (StringGenerator_init opt) len1 len2 false s
                         = Ok ((str1, str2), s') /\
    String.length str1 = Z.to_nat len1 /\ String.length str2 = Z.to_nat len2.
Proof.
  intros Ha. pose proof (StringGenerator_init_nonempty opt) as Hne.
  set (A := StringGenerator_init opt) in *. unfold generate_pair.
  destruct (generate_total A len1 s Hne) as (str1 & t1 & H1).
  rewrite (bind_ok_intro _ _ _ _ _ H1). cbv beta iota.
  destruct (generate_total A len2 t1 Hne) as (str2 & t2 & H2).
  rewrite (bind_ok_intro _ _ _ _ _ H2).
  exists str1, str2, t2. split; [reflexivity|].
  apply generate_spec in H1. destruct H1 as (syms1 & -> & Hs1 & Hl1).
  apply generate_spec in H2. destruct H2 as (syms2 & -> & Hs2 & Hl2).
  rewrite (proj2 (join_chars _ (alphabet_chars _ _ Ha Hs1))).
  rewrite (proj2 (join_chars _ (alphabet_chars _ _ Ha Hs2))).
  split; assumption.
Qed.

Lemma pair_not_similar_lengths_witness :
  Forall is_char (StringGenerator_init None) /\
  exists str1 str2 s', generate_pair (StringGenerator_init None) 4 9 false sample_entropy
                         = Ok ((str1, str2), s') /\
    String.length str1 = Z.to_nat 4 /\ String.length str2 = Z.to_nat 9.
Proof.
  split; [apply default_alphabet_chars|].
  apply pair_not_similar_lengths. apply default_alphabet_chars.
Defined.

(** With [similar=True] and [len1 >= 3], [generate_pair(len1, len2)] never
    raises for a generator whose symbols are single characters, and both
    strings have [len1] characters whatever [len2] is. *)
Theorem pair_similar_lengths opt len1 len2 s :
  Forall is_char (StringGenerator_init opt) -> 3 <= len1 ->
  exists str1 str2 s', generate_pair (StringGenerator_init opt) len1 len2 true s
                         = Ok ((str1, str2), s') /\
    String.length str1 = Z.to_nat len1 /\ String.length str2 = Z.to_nat len1.
Proof.
  intros Ha Hlen. pose proof (StringGenerator_init_nonempty opt) as Hne.
  destruct (generate_pair_similar_total _ len1 len2 s Hne Ha Hlen) as ([str1 str2] & t & H).
  exists str1, str2, t. split; [exact H|].
  destruct (generate_pair_similar_spec _ _ _ _ _ _ _ Ha H)
    as (syms & l & -> & -> & Hs & Hl & Hlen1 & Hlen2 & _).
  rewrite (proj2 (join_chars _ (alphabet_chars _ _ Ha Hs))).
  rewrite (proj2 (join_chars _ (alphabet_chars _ _ Ha Hl))).
  split; lia.
Qed.

Lemma pair_similar_lengths_witness :
  Forall is_char (StringGenerator_init None) /\ 3 <= 10 /\
  exists str1 str2 s', generate_pair (StringGenerator_init None) 10 12 true sample_entropy
                         = Ok ((str1, str2), s') /\
    String.length str1 = Z.to_nat 10 /\ String.length str2 = Z.to_nat 10.
Proof.
  split; [apply default_alphabet_chars|]. split; [lia|].
  apply pair_similar_lengths; [apply default_alphabet_chars | lia].
Defined.

Lemma join_empty_symbols l : Forall (fun x => In x [EmptyString]) l -> join l = EmptyString.
Proof.
  induction 1 as [|x l [<-|[]] _ IH]; [reflexivity|]. cbn. exact IH.
Qed.

(** A generator whose only symbol is the empty string [''] draws the empty
    string [str1], so [generate_pair(len1, len2, similar=True)] always
    raises [ValueError]: from [randint(1, len1 // 3)] when [len1 < 3], from
    [randint(0, len(str2) - 1) = randint(0, -1)] otherwise. *)
Theorem pair_similar_empty_symbol_raises len1 len2 s :
  generate_pair (StringGenerator_init (Some [EmptyString])) len1 len2 true s = Err ValueError.
Proof.
  assert (Hne : StringGenerator_init (Some [EmptyString]) <> [])
    by apply StringGenerator_init_nonempty.
  destruct (Z.lt_ge_cases len1 3) as [Hl|Hl].
  - apply generate_pair_short_err; assumption.
  - unfold generate_pair.
    destruct (generate_total _ len1 s Hne) as (str1 & t1 & H1).
    rewrite (bind_ok_intro _ _ _ _ _ H1). cbv beta iota zeta.
    apply generate_spec in H1. destruct H1 as (syms & -> & Hs & _).
    rewrite (join_empty_symbols syms Hs).
    destruct (randint_total 1 (len1 / 3) t1) as (k & t2 & Hk).
    { apply Z.div_le_lower_bound; lia. }
    rewrite (bind_ok_intro _ _ _ _ _ Hk).
    pose proof (randint_ok _ _ _ _ _ Hk).
    replace (Z.to_nat k) with (S (Z.to_nat (k - 1))) by lia.
    reflexivity.
Qed.
